(** * tilemaker: the auxiliary stores of [include/osm_store.h]

  A shallow embedding of the classes [UsedWays], [RelationScanStore],
  [RelationStore] and of the geometry helpers of [OSMStore], followed by
  the properties established about them.

  Conventions.
  - [WayID] and [NodeID] are [uint64_t], [size_t] is 64 bits wide: all are
    modelled by [N], and arithmetic that can leave the range is reduced
    with [wrap64].
  - A [std::vector<bool>] is a [list bool] together with its capacity.
    [operator[]] does no bounds check in C++; here every indexed access
    yields an [option], and [None] stands for the access outside
    [0 .. size()-1], which the language leaves undefined.
  - A [std::map] is a [gmap]; [operator[]] on a map inserts a
    value-initialised entry when the key is missing, [find] does not.
  - The mutexes are not modelled: every operation is one atomic step on
    the state.
  - Allocation never fails: [std::bad_alloc] and [std::length_error] are
    outside the model. *)

From stdpp Require Import base numbers option list gmap strings fin_maps.

Local Open Scope N_scope.

(** ** Machine integers *)

Abbreviation WayID := N.
Abbreviation NodeID := N.
Abbreviation size_t := N.

Definition two64 : N := 2 ^ 64.

(** Unsigned 64-bit wrap-around. *)
Definition wrap64 (n : N) : N := n mod two64.

(** ** [std::vector<bool>] *)

Module VecBool.

Record t : Type := mk { bits : list bool; cap : N }.

Definition empty : t := mk [] 0.

Definition size (v : t) : N := N.of_nat (length (bits v)).

(** [reserve(n)]: capacity grows to [n] when it is smaller; the elements
    and the size never change. *)
Definition reserve (n : N) (v : t) : t :=
  if cap v <? n then mk (bits v) n else v.

(** [resize(n)]: truncates to [n] elements, or pads with [false]. *)
Definition resize (n : N) (v : t) : t :=
  let k := N.to_nat n in
  mk (take k (bits v) ++ replicate (k - length (bits v))%nat false)
     (N.max (cap v) n).

(** [v[i]] as an rvalue. *)
Definition get (i : N) (v : t) : option bool := bits v !! N.to_nat i.

(** [v[i] = b]. *)
Definition set (i : N) (b : bool) (v : t) : option t :=
  if i <? size v then Some (mk (<[N.to_nat i := b]> (bits v)) (cap v))
  else None.

(** [clear()]: removes the elements, keeps the storage. *)
Definition clear (v : t) : t := mk [] (cap v).

End VecBool.

(** ** [class UsedWays] *)

Module UsedWays.

Record t : Type := mk { usedList : VecBool.t; inited : bool }.

(** A freshly constructed object: empty vector, [inited = false]. *)
Definition init : t := mk VecBool.empty false.

(** [pow(2,31)] converted to [size_t]. *)
Definition pow_2_31 : N := 2147483648.

Definition reserve (compact : bool) (numNodes : size_t) (s : t) : t :=
  if inited s then s
  else
    if compact
    then mk (VecBool.reserve (numNodes / 8) (usedList s)) true
    else mk (VecBool.reserve pow_2_31 (usedList s)) true.

(** [insert]: [None] when the assignment [usedList[wayid] = true] falls
    outside the vector. *)
Definition insert (wayid : WayID) (s : t) : option t :=
  let v := if VecBool.size (usedList s) <? wayid
           then VecBool.resize (wrap64 (wayid + 256)) (usedList s)
           else usedList s in
  v' ← VecBool.set wayid true v;
  Some (mk v' (inited s)).

(** [at]: a [const] member, so the state is not returned. [None] when
    the read [usedList[wayid]] falls outside the vector. *)
Definition at_ (wayid : WayID) (s : t) : option bool :=
  if VecBool.size (usedList s) <? wayid then Some false
  else VecBool.get wayid (usedList s).

Definition clear (s : t) : t := mk (VecBool.clear (usedList s)) (inited s).

(** [insert(w)] followed by [at(w)]. *)
Definition insert_then_at (wayid : WayID) (s : t) : option bool :=
  s' ← insert wayid s; at_ wayid s'.

End UsedWays.

(** ** [std::map] *)

(** [m[k]] on a [std::map]: yields the mapped value and the map itself
    when [k] is present; otherwise a value-initialised entry is inserted
    first, and the map is returned with that entry. *)
Definition map_subscript {V : Type} (dflt : V) (k : N) (m : gmap N V)
  : V * gmap N V :=
  match m !! k with
  | Some v => (v, m)
  | None => (dflt, <[k := dflt]> m)
  end.

(** ** [class RelationScanStore] *)

Module RelationScanStore.

(** [boost::container::flat_map<std::string, std::string>]: unique keys. *)
Abbreviation tag_map_t := (gmap string string).

Record t : Type := mk {
  relationsForWays : gmap N (list N);
  relationTags : gmap N (gmap string string)
}.

Definition init : t := mk ∅ ∅.

(** [relationsForWays[wayid].emplace_back(relid)] *)
Definition relation_contains_way (relid wayid : WayID) (s : t) : t :=
  let '(v, m) := map_subscript [] wayid (relationsForWays s) in
  mk (<[wayid := v ++ [relid]]> m) (relationTags s).

(** [relationTags[relid] = tags] *)
Definition store_relation_tags (relid : WayID) (tags : gmap string string)
  (s : t) : t :=
  mk (relationsForWays s) (<[relid := tags]> (relationTags s)).

(** [relationsForWays.find(wayid) != relationsForWays.end()] *)
Definition way_in_any_relations (wayid : WayID) (s : t) : bool :=
  match relationsForWays s !! wayid with
  | Some _ => true
  | None => false
  end.

(** [return relationsForWays[wayid]]: not a [const] member; the state
    after the call is returned next to the vector. *)
Definition relations_for_way (wayid : WayID) (s : t) : list WayID * t :=
  let '(v, m) := map_subscript [] wayid (relationsForWays s) in
  (v, mk m (relationTags s)).

Definition get_relation_tag (relid : WayID) (key : string) (s : t)
  : string :=
  match relationTags s !! relid with
  | None => EmptyString
  | Some tags =>
      match tags !! key with
      | None => EmptyString
      | Some v => v
      end
  end.

Definition clear (s : t) : t := mk ∅ ∅.

(** A run of [relation_contains_way(relid, wayid)] calls, first call
    first. *)
Definition record_all (calls : list (WayID * WayID)) (s : t) : t :=
  foldl (λ acc c, relation_contains_way c.1 c.2 acc) s calls.

(** What the index holds for [wayid], read without touching it (not a
    member of the class; used to state what the members do). *)
Definition recorded_for (wayid : WayID) (s : t) : list WayID :=
  default [] (relationsForWays s !! wayid).

End RelationScanStore.

(** ** [class RelationStore] *)

Module RelationStore.

Abbreviation wayid_vector_t := (list WayID).
Abbreviation relation_entry_t := (wayid_vector_t * wayid_vector_t)%type.
Abbreviation element_t := (WayID * relation_entry_t)%type.
Abbreviation map_t := (list element_t).

(** [mOutInLists] is a [std::unique_ptr<map_t>]: [None] is the null
    pointer the object holds until [reopen] runs. *)
Record t : Type := mk { mOutInLists : option map_t }.

Definition init : t := mk None.

Definition reopen (s : t) : t := mk (Some []).

(** The value-initialised element [resize] pads with. *)
Definition element_zero : element_t := (0, ([], [])).

(** [std::deque::resize(n)] *)
Definition deque_resize (n : size_t) (d : map_t) : map_t :=
  let k := N.to_nat n in
  take k d ++ replicate (k - length d)%nat element_zero.

(** [std::copy(first, last, d.begin() + pos)]: assigns the source elements
    to the positions [pos], [pos+1], ...; [None] when a position lies
    outside the destination. *)
Fixpoint std_copy (src : list element_t) (pos : nat) (d : map_t)
  : option map_t :=
  match src with
  | [] => Some d
  | x :: src' =>
      if decide (pos < length d)%nat
      then std_copy src' (S pos) (<[pos := x]> d)
      else None
  end.

(** [insert_front]: [None] when the pointer is null or a copy leaves the
    deque. The elements are moved from [new_relations]; what is left in
    the caller's vector is not part of the store and is not modelled. *)
Definition insert_front (new_relations : list element_t) (s : t)
  : option t :=
  d ← mOutInLists s;
  let i := N.of_nat (length d) in
  let d1 := deque_resize (wrap64 (i + N.of_nat (length new_relations))) d in
  d2 ← std_copy new_relations (N.to_nat i) d1;
  Some (mk (Some d2)).

Definition clear (s : t) : option t :=
  d ← mOutInLists s; Some (mk (Some [])).

Definition size (s : t) : option size_t :=
  d ← mOutInLists s; Some (N.of_nat (length d)).

End RelationStore.

(** ** [class OSMStore] *)

Module OSMStore.

(** [struct LatpLon] of [coordinates.h]: two [int32_t] fields holding
    degrees scaled by 10^7. *)
Record LatpLon : Type := mkLatpLon { latp : Z; lon : Z }.

(** The one exception [fillPoints] handles. *)
Inductive exn : Type := out_of_range.

(** What a call that may throw produces. *)
Inductive outcome (A : Type) : Type :=
| Returns (a : A)
| Throws (e : exn).
Arguments Returns {A} a.
Arguments Throws {A} e.

(** [boost::geometry::model::polygon]: an outer ring and the inner rings.
    A linestring and a ring are sequences of points, a multi-polygon is a
    sequence of polygons. *)
Record Polygon (Point : Type) : Type :=
  mkPolygon { outer : list Point; inners : list (list Point) }.
Arguments mkPolygon {Point} outer inners.
Arguments outer {Point} p.
Arguments inners {Point} p.

Abbreviation Linestring Point := (list Point).
Abbreviation MultiPolygon Point := (list (Polygon Point)).

(** The data members the header defines inline. [nodes] and [ways] are
    references to classes that are only forward-declared; they enter the
    geometry helpers through the iterators (see [deref] below). *)
Record t : Type := mk {
  use_compact_nodes : bool;
  require_integrity : bool;
  relations : RelationStore.t;
  used_ways : UsedWays.t;
  scanned_relations : RelationScanStore.t
}.

(** The members as their default initialisers leave them. *)
Definition members_init : t :=
  mk false true RelationStore.init UsedWays.init RelationScanStore.init.

Definition use_compact_store (use : bool) (s : t) : t :=
  mk use (require_integrity s) (relations s) (used_ways s)
     (scanned_relations s).

Definition enforce_integrity (ei : bool) (s : t) : t :=
  mk (use_compact_nodes s) ei (relations s) (used_ways s)
     (scanned_relations s).

Definition integrity_enforced (s : t) : bool := require_integrity s.

Definition relations_insert_front
  (new_relations : list RelationStore.element_t) (s : t) : option t :=
  r ← RelationStore.insert_front new_relations (relations s);
  Some (mk (use_compact_nodes s) (require_integrity s) r (used_ways s)
           (scanned_relations s)).

Definition mark_way_used (i : WayID) (s : t) : option t :=
  u ← UsedWays.insert i (used_ways s);
  Some (mk (use_compact_nodes s) (require_integrity s) (relations s) u
           (scanned_relations s)).

Definition way_is_used (i : WayID) (s : t) : option bool :=
  UsedWays.at_ i (used_ways s).

Definition relation_contains_way (relid wayid : WayID) (s : t) : t :=
  mk (use_compact_nodes s) (require_integrity s) (relations s) (used_ways s)
     (RelationScanStore.relation_contains_way relid wayid
        (scanned_relations s)).

Definition store_relation_tags (relid : WayID) (tags : gmap string string)
  (s : t) : t :=
  mk (use_compact_nodes s) (require_integrity s) (relations s) (used_ways s)
     (RelationScanStore.store_relation_tags relid tags (scanned_relations s)).

Definition way_in_any_relations (wayid : WayID) (s : t) : bool :=
  RelationScanStore.way_in_any_relations wayid (scanned_relations s).

Definition relations_for_way (wayid : WayID) (s : t) : list WayID * t :=
  let '(v, r) :=
    RelationScanStore.relations_for_way wayid (scanned_relations s) in
  (v, mk (use_compact_nodes s) (require_integrity s) (relations s)
         (used_ways s) r).

Definition get_relation_tag (relid : WayID) (key : string) (s : t)
  : string :=
  RelationScanStore.get_relation_tag relid key (scanned_relations s).

Section Geometry.

(** [Point] of [geom.h] is a Boost point over [double];
    [make_Point x y] stands for
    [boost::geometry::make<Point>(x/10000000.0, y/10000000.0)]. *)
Context {Point : Type} (make_Point : Z → Z → Point).

(** The template parameter of [fillPoints]: an iterator type whose
    [operator->] either reaches a [LatpLon] or throws [std::out_of_range].
    The range [begin, end) is the list of its positions. *)
Context {LatpLonIt : Type} (deref : LatpLonIt → option LatpLon).

(** [fillPoints]: [points] is passed by reference, so the points pushed
    before a throw stay in it; both the range and the exception, if any,
    are returned. *)
Fixpoint fillPoints (s : t) (points : list Point) (its : list LatpLonIt)
  : list Point * option exn :=
  match its with
  | [] => (points, None)
  | it :: rest =>
      match deref it with
      | Some ll =>
          fillPoints s (points ++ [make_Point (lon ll) (latp ll)]) rest
      | None =>
          if require_integrity s then (points, Some out_of_range)
          else fillPoints s points rest
      end
  end.

(** [llListLinestring]: the local [ls] is lost when the exception leaves
    the function. *)
Definition llListLinestring (s : t) (its : list LatpLonIt)
  : outcome (Linestring Point) :=
  match fillPoints s [] its with
  | (ls, None) => Returns ls
  | (_, Some e) => Throws e
  end.

(** [wayListLinestring]: [boost::geometry::append(out, pt)] adds [pt] at
    the end of [out]. *)
Definition wayListLinestring (mp : MultiPolygon Point) : Linestring Point :=
  match mp with
  | [] => []
  | mp0 :: _ => foldl (λ out pt, out ++ [pt]) [] (outer mp0)
  end.

(** The positions of a range that resolve, in order. *)
Definition resolvable (its : list LatpLonIt) : list LatpLon :=
  omap deref its.

Definition to_Point (ll : LatpLon) : Point := make_Point (lon ll) (latp ll).

End Geometry.

Section Correct.

Context {Point : Type} `{EqDecision Point} (make_Point : Z → Z → Point).
Context {LatpLonIt : Type} (deref : LatpLonIt → option LatpLon).

(** Whether a ring already has the winding wanted of an outer ring, and
    of an inner ring. Boost decides this from the sign of the ring's area,
    computed in floating point. *)
Context (outer_winding_ok inner_winding_ok : list Point → bool).

(** Modelled from the spec: the ring closing step of
    [boost::geometry::correct], a library function whose code is not in
    the repository. Section 4.5: auto-close (append the first point if
    the last does not match). *)
Definition close_ring (r : list Point) : list Point :=
  match head r, last r with
  | Some a, Some b => if decide (a = b) then r else r ++ [a]
  | _, _ => r
  end.

(** Modelled from the spec: the orientation step of
    [boost::geometry::correct]. Section 4.5: apply orientation correction
    to the canonical winding. *)
Definition orient (ok : list Point → bool) (r : list Point) : list Point :=
  if ok r then r else reverse r.

(** Modelled from the spec: [boost::geometry::correct] on a polygon,
    closing and orienting every ring (outer rings one winding direction,
    inner rings the opposite). *)
Definition correct (p : Polygon Point) : Polygon Point :=
  mkPolygon (orient outer_winding_ok (close_ring (outer p)))
            (map (λ r, orient inner_winding_ok (close_ring r)) (inners p)).

(** [llListPolygon]: the points go to the outer ring of a fresh polygon,
    which is then corrected. *)
Definition llListPolygon (s : t) (its : list LatpLonIt)
  : outcome (Polygon Point) :=
  match fillPoints make_Point deref s [] its with
  | (ring, None) => Returns (correct (mkPolygon ring []))
  | (_, Some e) => Throws e
  end.

End Correct.

End OSMStore.

(** ** A small concrete instance

    Points with exact integer coordinates and a node table, used to run
    the geometry helpers on explicit inputs. *)

Module Sample.

Abbreviation Pt := (Z * Z)%type.

Definition make_Pt (x y : Z) : Pt := (x, y).

(** Nodes 1, 2 and 3 are stored; any other id is not. *)
Definition nodes : gmap N OSMStore.LatpLon :=
  list_to_map
    [ (1, OSMStore.mkLatpLon 0 0);
      (2, OSMStore.mkLatpLon 10 0);
      (3, OSMStore.mkLatpLon 10 10) ].

(** Dereferencing a node id looks it up in the table. *)
Definition node_at (id : NodeID) : option OSMStore.LatpLon := nodes !! id.

(** Twice the signed area of a ring (shoelace sum over consecutive
    points), positive for a clockwise ring. *)
Fixpoint area2 (r : list Pt) : Z :=
  match r with
  | p :: (q :: _) as r' => (p.2 * q.1 - p.1 * q.2 + area2 r')%Z
  | _ => 0%Z
  end.

Definition outer_ok (r : list Pt) : bool := (0 <=? area2 r)%Z.
Definition inner_ok (r : list Pt) : bool := (area2 r <=? 0)%Z.

Definition strict : OSMStore.t := OSMStore.members_init.
Definition lenient : OSMStore.t := OSMStore.enforce_integrity false strict.

(** The bit vector after [insert(5)] on a fresh object, and after a
    further [insert(300)]. *)
Definition marked_5 : UsedWays.t :=
  Eval vm_compute in default UsedWays.init (UsedWays.insert 5 UsedWays.init).

Definition marked_5_300 : UsedWays.t :=
  Eval vm_compute in default UsedWays.init (UsedWays.insert 300 marked_5).

End Sample.

(** * Properties *)

(** ** The bit vector *)

Lemma VecBool_size_resize (n : N) (v : VecBool.t) :
  VecBool.size (VecBool.resize n v) = n.
Proof.
  unfold VecBool.size, VecBool.resize; simpl.
  rewrite length_app, length_take, length_replicate. lia.
Qed.

Lemma VecBool_get_set (i : N) (b : bool) (v v' : VecBool.t) :
  VecBool.set i b v = Some v' → VecBool.get i v' = Some b.
Proof.
  unfold VecBool.set, VecBool.get, VecBool.size.
  destruct (N.ltb_spec i (N.of_nat (length (VecBool.bits v)))); [|done].
  intros [= <-]; simpl. apply list_lookup_insert_eq. lia.
Qed.

Lemma VecBool_size_set (i : N) (b : bool) (v v' : VecBool.t) :
  VecBool.set i b v = Some v' → VecBool.size v' = VecBool.size v.
Proof.
  unfold VecBool.set. case_match; [|done].
  intros [= <-]. unfold VecBool.size; simpl. by rewrite length_insert.
Qed.

Lemma VecBool_set_in_bounds (i : N) (b : bool) (v : VecBool.t) :
  i < VecBool.size v ↔ is_Some (VecBool.set i b v).
Proof.
  unfold VecBool.set.
  destruct (N.ltb_spec i (VecBool.size v)); split; intros Hs;
    try done; lia.
Qed.

Lemma VecBool_get_in_bounds (i : N) (v : VecBool.t) :
  i < VecBool.size v ↔ is_Some (VecBool.get i v).
Proof.
  unfold VecBool.get, VecBool.size. rewrite lookup_lt_is_Some. lia.
Qed.

(** ** [UsedWays] *)

(** The guard of [insert] lets [wayid = size()] through without growing
    the vector, and the assignment then falls one past the end. *)
Lemma UsedWays_insert_at_size (s : UsedWays.t) :
  UsedWays.insert (VecBool.size (UsedWays.usedList s)) s = None.
Proof.
  unfold UsedWays.insert. rewrite N.ltb_irrefl.
  unfold VecBool.set. by rewrite N.ltb_irrefl.
Qed.

(** Away from that boundary, and as long as [wayid + 256] does not wrap,
    [insert] succeeds and [at] then reads [true]. *)
Lemma UsedWays_insert_then_at_off_boundary (w : N) (s : UsedWays.t) :
  w ≠ VecBool.size (UsedWays.usedList s) →
  w + 256 < two64 →
  UsedWays.insert_then_at w s = Some true.
Proof.
  intros Hne Hwrap. unfold UsedWays.insert_then_at, UsedWays.insert.
  set (v := if _ <? _ then _ else _).
  assert (Hin : w < VecBool.size v).
  { subst v. destruct (N.ltb_spec (VecBool.size (UsedWays.usedList s)) w).
    - rewrite VecBool_size_resize. unfold wrap64.
      rewrite N.mod_small by done. lia.
    - lia. }
  destruct (VecBool.set w true v) as [v'|] eqn:Hset; simpl.
  - unfold UsedWays.at_; simpl.
    rewrite (VecBool_size_set _ _ _ _ Hset).
    destruct (N.ltb_spec (VecBool.size v) w); [lia|].
    by eapply VecBool_get_set.
  - apply (VecBool_set_in_bounds w true) in Hin. rewrite Hset in Hin.
    by destruct Hin.
Qed.

(** C1 (evaluation at the failing input). On a freshly constructed
    [UsedWays] the id [0] equals the size of the bit vector: [insert(0)]
    does not resize and writes outside the vector, so the sequence
    [insert(0); at(0)] has no defined result and does not return [true]. *)
Theorem UsedWays_insert_then_at_fresh :
  UsedWays.insert 0 UsedWays.init = None ∧
  UsedWays.insert_then_at 0 UsedWays.init = None ∧
  UsedWays.insert_then_at 0 UsedWays.init ≠ Some true.
Proof. by repeat split. Qed.

(** [at] answers [false] beyond the size and leaves the vector alone (it
    returns no state). *)
Lemma UsedWays_at_beyond_size (w : N) (s : UsedWays.t) :
  VecBool.size (UsedWays.usedList s) < w → UsedWays.at_ w s = Some false.
Proof.
  intros Hlt. unfold UsedWays.at_.
  by destruct (N.ltb_spec (VecBool.size (UsedWays.usedList s)) w); [|lia].
Qed.

(** The guard of [at] lets [wayid = size()] through as well: the read is
    one past the end. *)
Lemma UsedWays_at_size (s : UsedWays.t) :
  UsedWays.at_ (VecBool.size (UsedWays.usedList s)) s = None.
Proof.
  unfold UsedWays.at_. rewrite N.ltb_irrefl.
  unfold VecBool.get, VecBool.size. apply lookup_ge_None. lia.
Qed.

(** C3 (evaluation at the failing input). The out-of-bounds branch of
    the indexed read is reached: [at(0)] on a fresh object, and
    [at(261)] after [insert(5)] has grown the vector to 261 bits; the
    indexed write of [insert(0)] on a fresh object is out of bounds
    too. *)
Theorem UsedWays_at_reaches_out_of_bounds :
  UsedWays.at_ 0 UsedWays.init = None ∧
  (∃ s, UsedWays.insert 5 UsedWays.init = Some s ∧
        VecBool.size (UsedWays.usedList s) = 261 ∧
        UsedWays.at_ 261 s = None) ∧
  VecBool.set 0 true (UsedWays.usedList UsedWays.init) = None.
Proof.
  split; [done|]. split; [|done].
  eexists. split; [vm_compute; reflexivity|]. by vm_compute.
Qed.

(** C5. Once [reserve] has run, a further [reserve], whatever its
    arguments, returns the state unchanged: same capacity, same bits,
    and [inited] stays [true]. *)
Theorem UsedWays_reserve_idempotent
  (compact1 compact2 : bool) (n1 n2 : N) (s : UsedWays.t) :
  let s1 := UsedWays.reserve compact1 n1 s in
  UsedWays.reserve compact2 n2 s1 = s1 ∧
  UsedWays.inited s1 = true ∧
  VecBool.cap (UsedWays.usedList (UsedWays.reserve compact2 n2 s1))
    = VecBool.cap (UsedWays.usedList s1) ∧
  UsedWays.inited (UsedWays.reserve compact2 n2 s1) = UsedWays.inited s1.
Proof.
  assert (Hin : UsedWays.inited (UsedWays.reserve compact1 n1 s) = true).
  { unfold UsedWays.reserve. destruct (UsedWays.inited s) eqn:E; [done|].
    by destruct compact1. }
  assert (Hid : UsedWays.reserve compact2 n2 (UsedWays.reserve compact1 n1 s)
                = UsedWays.reserve compact1 n1 s).
  { unfold UsedWays.reserve at 1. by rewrite Hin. }
  simpl. by rewrite Hid.
Qed.

(** ** [RelationScanStore] *)

Lemma map_subscript_value {V : Type} (dflt : V) (k : N) (m : gmap N V) :
  (map_subscript dflt k m).1 = default dflt (m !! k).
Proof. unfold map_subscript. by destruct (m !! k). Qed.

Lemma map_subscript_lookup {V : Type} (dflt : V) (k k' : N) (m : gmap N V) :
  (map_subscript dflt k m).2 !! k' =
  if decide (k = k') then Some (default dflt (m !! k)) else m !! k'.
Proof.
  unfold map_subscript. destruct (m !! k) eqn:E; simpl.
  - case_decide; by subst.
  - rewrite lookup_insert. by case_decide.
Qed.

Lemma relations_for_way_value (w : N) (s : RelationScanStore.t) :
  (RelationScanStore.relations_for_way w s).1 = RelationScanStore.recorded_for w s.
Proof.
  unfold RelationScanStore.relations_for_way, RelationScanStore.recorded_for.
  pose proof (map_subscript_value [] w (RelationScanStore.relationsForWays s)).
  by destruct (map_subscript _ _ _).
Qed.

Lemma recorded_for_contains_way (relid w w' : N) (s : RelationScanStore.t) :
  RelationScanStore.recorded_for w' (RelationScanStore.relation_contains_way relid w s) =
  if decide (w = w') then RelationScanStore.recorded_for w' s ++ [relid]
  else RelationScanStore.recorded_for w' s.
Proof.
  unfold RelationScanStore.recorded_for, RelationScanStore.relation_contains_way.
  pose proof (map_subscript_value [] w (RelationScanStore.relationsForWays s)) as Hv.
  pose proof (map_subscript_lookup [] w w' (RelationScanStore.relationsForWays s)) as Hl.
  destruct (map_subscript _ _ _) as [v m]; simpl in *.
  rewrite lookup_insert. case_decide; subst; simpl; [done|].
  by rewrite Hl.
Qed.

Lemma recorded_for_record_all (calls : list (N * N)) (w : N)
  (s : RelationScanStore.t) :
  RelationScanStore.recorded_for w (RelationScanStore.record_all calls s) =
  RelationScanStore.recorded_for w s ++ (filter (λ c, c.2 = w) calls).*1.
Proof.
  unfold RelationScanStore.record_all.
  revert s. induction calls as [|[relid w'] calls IH]; intros s; simpl.
  - by rewrite app_nil_r.
  - rewrite IH, recorded_for_contains_way, filter_cons; simpl.
    case_decide; [|done]. by rewrite <-app_assoc.
Qed.

(** A read of a way that has an entry changes nothing. *)
Lemma relations_for_way_present (w : N) (s : RelationScanStore.t) :
  RelationScanStore.way_in_any_relations w s = true →
  (RelationScanStore.relations_for_way w s).2 = s.
Proof.
  unfold RelationScanStore.way_in_any_relations,
    RelationScanStore.relations_for_way, map_subscript.
  destruct (RelationScanStore.relationsForWays s !! w); [|done].
  by destruct s.
Qed.

(** A read of a way without an entry returns the empty vector and
    leaves an (empty) entry behind, which [way_in_any_relations] then
    reports. *)
Lemma relations_for_way_absent (w : N) (s : RelationScanStore.t) :
  RelationScanStore.way_in_any_relations w s = false →
  (RelationScanStore.relations_for_way w s).1 = [] ∧
  RelationScanStore.way_in_any_relations w
    (RelationScanStore.relations_for_way w s).2 = true.
Proof.
  unfold RelationScanStore.way_in_any_relations,
    RelationScanStore.relations_for_way, map_subscript.
  destruct (RelationScanStore.relationsForWays s !! w) eqn:E; [done|].
  intros _; simpl. by rewrite lookup_insert_eq.
Qed.

(** C2 (evaluation at the failing input). On an empty index,
    [relations_for_way(5)] returns the empty vector, but
    [way_in_any_relations(5)] is [false] before the call and [true]
    after it: the subscript operator has inserted an entry for way 5. *)
Theorem relations_for_way_inserts_entry :
  let s := RelationScanStore.init in
  let r := RelationScanStore.relations_for_way 5 s in
  r.1 = [] ∧
  RelationScanStore.way_in_any_relations 5 s = false ∧
  RelationScanStore.way_in_any_relations 5 r.2 = true.
Proof. by vm_compute. Qed.

Lemma filter_replicate_same (relid w : N) (n : nat) :
  (filter (λ c : N * N, c.2 = w) (replicate n (relid, w))).*1
  = replicate n relid.
Proof.
  induction n as [|n IH]; [done|].
  change (replicate (S n) (relid, w)) with ((relid, w) :: replicate n (relid, w)).
  rewrite filter_cons_True by done. rewrite fmap_cons, IH. done.
Qed.

(** C7. After any run of [relation_contains_way] calls,
    [relations_for_way(wayid)] returns what it returned before the run
    followed by the relation ids recorded for [wayid], in call order and
    with repetitions; on a fresh index that is exactly the recorded ids,
    and a pair recorded [n] times yields its relation id [n] times. *)
Theorem relations_for_way_record_all
  (calls : list (N * N)) (w relid : N) (n : nat) (s : RelationScanStore.t) :
  (RelationScanStore.relations_for_way w
     (RelationScanStore.record_all calls s)).1
  = (RelationScanStore.relations_for_way w s).1
      ++ (filter (λ c, c.2 = w) calls).*1 ∧
  (RelationScanStore.relations_for_way w
     (RelationScanStore.record_all calls RelationScanStore.init)).1
  = (filter (λ c, c.2 = w) calls).*1 ∧
  (RelationScanStore.relations_for_way w
     (RelationScanStore.record_all (replicate n (relid, w))
        RelationScanStore.init)).1
  = replicate n relid.
Proof.
  rewrite !relations_for_way_value, !recorded_for_record_all.
  split; [done|]. split; [done|].
  unfold RelationScanStore.recorded_for; simpl. rewrite lookup_empty; simpl.
  apply filter_replicate_same.
Qed.

(** C8. [get_relation_tag] is a total function, and it returns the empty
    string when the relation has no stored tags as well as when it has
    tags that lack the key. *)
Theorem get_relation_tag_absent
  (relid : N) (key : string) (s : RelationScanStore.t) :
  RelationScanStore.relationTags s !! relid = None ∨
  (∃ tags : gmap string string,
      RelationScanStore.relationTags s !! relid = Some tags ∧
      tags !! key = None) →
  RelationScanStore.get_relation_tag relid key s = EmptyString.
Proof.
  unfold RelationScanStore.get_relation_tag.
  intros [-> | (tags & -> & ->)]; done.
Qed.

(** ** [RelationStore] *)

Lemma deque_resize_grow (d : RelationStore.map_t) (k : nat) :
  RelationStore.deque_resize (N.of_nat (length d + k)) d
  = d ++ replicate k RelationStore.element_zero.
Proof.
  unfold RelationStore.deque_resize. rewrite Nat2N.id.
  rewrite take_ge by lia. f_equal. f_equal. lia.
Qed.

(** A copy that fits overwrites exactly the window it is aimed at. *)
Lemma std_copy_window (src : list RelationStore.element_t) :
  ∀ (pos : nat) (d : RelationStore.map_t),
    (pos + length src ≤ length d)%nat →
    RelationStore.std_copy src pos d
    = Some (take pos d ++ src ++ drop (pos + length src) d).
Proof.
  induction src as [|x src IH]; intros pos d Hfit; simpl in *.
  - by rewrite Nat.add_0_r, take_drop.
  - case_decide; [|lia].
    rewrite IH by (rewrite length_insert; lia).
    rewrite (take_S_r _ _ x) by (apply list_lookup_insert_eq; lia).
    rewrite take_insert_ge by lia.
    rewrite drop_insert_lt by lia.
    rewrite <-app_assoc. simpl. by rewrite Nat.add_succ_r.
Qed.

(** C6. On an opened store, [insert_front] succeeds and leaves the old
    entries followed by the new ones: every old entry keeps its index,
    the [j]-th new entry sits at index [old size + j], and [size()] grows
    by the number of new entries. *)
Theorem insert_front_appends
  (new_relations old : list RelationStore.element_t) (s : RelationStore.t) :
  RelationStore.mOutInLists s = Some old →
  N.of_nat (length old) + N.of_nat (length new_relations) < two64 →
  ∃ s',
    RelationStore.insert_front new_relations s = Some s' ∧
    RelationStore.mOutInLists s' = Some (old ++ new_relations) ∧
    (∀ i x, old !! i = Some x → (old ++ new_relations) !! i = Some x) ∧
    (∀ j x, new_relations !! j = Some x →
            (old ++ new_relations) !! (length old + j)%nat = Some x) ∧
    RelationStore.size s = Some (N.of_nat (length old)) ∧
    RelationStore.size s'
      = Some (N.of_nat (length old) + N.of_nat (length new_relations)).
Proof.
  intros Hold Hfit. unfold RelationStore.insert_front, RelationStore.size.
  rewrite Hold; simpl.
  unfold wrap64. rewrite N.mod_small by done.
  rewrite <-Nat2N.inj_add, deque_resize_grow, Nat2N.id.
  rewrite std_copy_window by (rewrite length_app, length_replicate; lia).
  simpl. eexists; split; [reflexivity|]; simpl.
  rewrite take_app_length.
  rewrite drop_ge by (rewrite length_app, length_replicate; lia).
  rewrite app_nil_r.
  repeat split.
  - intros i x Hi. by apply lookup_app_l_Some.
  - intros j x Hj. by rewrite lookup_app_r, Nat.add_comm, Nat.add_sub by lia.
  - by rewrite length_app, Nat2N.inj_add.
Qed.

(** ** Geometry helpers of [OSMStore] *)

Section GeometryFacts.

Context {Point : Type} `{EqDecision Point} (make_Point : Z → Z → Point).
Context {LatpLonIt : Type} (deref : LatpLonIt → option OSMStore.LatpLon).
Context (outer_winding_ok inner_winding_ok : list Point → bool).

Local Abbreviation fillPoints := (OSMStore.fillPoints make_Point deref).
Local Abbreviation to_Point := (OSMStore.to_Point make_Point).
Local Abbreviation resolvable := (OSMStore.resolvable deref).

(** Without integrity enforcement the unresolvable positions are
    skipped and the loop runs to the end. *)
Lemma fillPoints_lenient (s : OSMStore.t) (its : list LatpLonIt) :
  OSMStore.require_integrity s = false →
  ∀ points, fillPoints s points its
            = (points ++ (to_Point <$> resolvable its), None).
Proof.
  intros Hri. induction its as [|it its IH]; intros points; simpl.
  - by rewrite app_nil_r.
  - unfold OSMStore.resolvable; simpl.
    destruct (deref it) as [ll|]; simpl.
    + rewrite IH. by rewrite <-app_assoc.
    + rewrite Hri. apply IH.
Qed.

(** When every position resolves the flag plays no role. *)
Lemma fillPoints_all_resolve (s : OSMStore.t) (its : list LatpLonIt) :
  Forall (λ it, is_Some (deref it)) its →
  ∀ points, fillPoints s points its
            = (points ++ (to_Point <$> resolvable its), None).
Proof.
  induction 1 as [|it its [ll Hll] _ IH]; intros points; simpl.
  - by rewrite app_nil_r.
  - unfold OSMStore.resolvable; simpl. rewrite Hll; simpl.
    rewrite IH. by rewrite <-app_assoc.
Qed.

(** With integrity enforcement the first unresolvable position ends the
    loop with the exception; the points pushed so far are a prefix of the
    resolvable ones. *)
Lemma fillPoints_strict (s : OSMStore.t) (its : list LatpLonIt) :
  OSMStore.require_integrity s = true →
  (∃ it, it ∈ its ∧ deref it = None) →
  ∀ points, ∃ pushed rest,
    to_Point <$> resolvable its = pushed ++ rest ∧
    fillPoints s points its
    = (points ++ pushed, Some OSMStore.out_of_range).
Proof.
  intros Hri. induction its as [|it its IH]; intros (bad & Hin & Hbad) points.
  - by apply elem_of_nil in Hin.
  - simpl. unfold OSMStore.resolvable; simpl.
    destruct (deref it) as [ll|] eqn:Hit; simpl.
    + apply elem_of_cons in Hin as [-> | Hin]; [congruence|].
      destruct (IH (ex_intro _ bad (conj Hin Hbad))
                   (points ++ [make_Point (OSMStore.lon ll) (OSMStore.latp ll)]))
        as (pushed & rest & Hsplit & Hfill).
      exists (to_Point ll :: pushed), rest. split.
      * simpl. f_equal. exact Hsplit.
      * rewrite Hfill. by rewrite <-app_assoc.
    + rewrite Hri. exists [], (to_Point <$> omap deref its).
      split; [done|]. by rewrite app_nil_r.
Qed.

(** C4. [require_integrity] is [true] until [enforce_integrity] changes
    it. For a range with at least one position that fails to resolve:
    when the flag is [true], [fillPoints] ends with [out_of_range] and
    [llListLinestring] throws it; when the flag is [false], [fillPoints]
    completes and [llListLinestring] returns the points of exactly the
    resolvable positions, in order. *)
Theorem fillPoints_integrity_policy (s : OSMStore.t) (its : list LatpLonIt) :
  (∃ it, it ∈ its ∧ deref it = None) →
  OSMStore.require_integrity OSMStore.members_init = true ∧
  (∀ ei, OSMStore.integrity_enforced (OSMStore.enforce_integrity ei s) = ei) ∧
  (OSMStore.require_integrity s = true →
     (fillPoints s [] its).2 = Some OSMStore.out_of_range ∧
     OSMStore.llListLinestring make_Point deref s its
       = OSMStore.Throws OSMStore.out_of_range) ∧
  (OSMStore.require_integrity s = false →
     fillPoints s [] its = (to_Point <$> resolvable its, None) ∧
     OSMStore.llListLinestring make_Point deref s its
       = OSMStore.Returns (to_Point <$> resolvable its)).
Proof.
  intros Hbad. split; [done|]. split; [done|]. split; intros Hri.
  - destruct (fillPoints_strict s its Hri Hbad []) as (pushed & rest & _ & Hfill).
    unfold OSMStore.llListLinestring. by rewrite Hfill.
  - unfold OSMStore.llListLinestring.
    by rewrite (fillPoints_lenient s its Hri []).
Qed.

Lemma foldl_snoc (acc l : list Point) :
  foldl (λ out pt, out ++ [pt]) acc l = acc ++ l.
Proof.
  revert acc. induction l as [|pt l IH]; intros acc; simpl.
  - by rewrite app_nil_r.
  - rewrite IH. by rewrite <-app_assoc.
Qed.

(** C10. [wayListLinestring] returns the empty linestring for an empty
    multi-polygon, and otherwise the points of the outer ring of the
    first polygon, in order, whatever the inner rings of that polygon and
    the polygons after it are. *)
Theorem wayListLinestring_first_outer :
  OSMStore.wayListLinestring ([] : list (OSMStore.Polygon Point)) = [] ∧
  (∀ (mp0 : OSMStore.Polygon Point) others,
     OSMStore.wayListLinestring (mp0 :: others) = OSMStore.outer mp0) ∧
  (∀ (ring : list Point) holes holes' others others',
     OSMStore.wayListLinestring (OSMStore.mkPolygon ring holes :: others)
     = OSMStore.wayListLinestring (OSMStore.mkPolygon ring holes' :: others')).
Proof.
  split; [done|]. split.
  - intros mp0 others. unfold OSMStore.wayListLinestring. apply foldl_snoc.
  - intros. unfold OSMStore.wayListLinestring; simpl. by rewrite !foldl_snoc.
Qed.

(** A ring whose two ends differ gets its first point appended. *)
Lemma close_ring_open (r : list Point) (a b : Point) :
  head r = Some a → last r = Some b → a ≠ b →
  OSMStore.close_ring r = r ++ [a].
Proof.
  intros Hh Hl Hne. unfold OSMStore.close_ring. rewrite Hh, Hl.
  by case_decide.
Qed.

(** A ring whose two ends agree is left as it is. *)
Lemma close_ring_closed (r : list Point) :
  head r = last r → OSMStore.close_ring r = r.
Proof.
  intros Heq. unfold OSMStore.close_ring. rewrite <-Heq.
  destruct (head r); [|done]. by case_decide.
Qed.

(** Orienting a ring keeps its two ends equal. *)
Lemma orient_keeps_closed (ok : list Point → bool) (r : list Point) (a : Point) :
  head r = Some a → last r = Some a →
  head (OSMStore.orient ok r) = Some a ∧ last (OSMStore.orient ok r) = Some a.
Proof.
  intros Hh Hl. unfold OSMStore.orient. destruct (ok r); [done|].
  by rewrite head_reverse, last_reverse.
Qed.

(** C9. Take a range that [fillPoints] runs through (every position
    resolves, or integrity is not enforced) and whose resolved points
    start with [a] and end with some [b] different from [a]. Then
    [llListPolygon] returns a polygon whose outer ring starts and ends
    with [a], is the resolved points with [a] appended or the reverse of
    that, and has the winding wanted of an outer ring (provided reversing
    a wrongly wound ring gives a rightly wound one). *)
Theorem llListPolygon_closes_ring
  (s : OSMStore.t) (its : list LatpLonIt) (a b : Point) :
  let pts := to_Point <$> resolvable its in
  OSMStore.require_integrity s = false ∨
    Forall (λ it, is_Some (deref it)) its →
  head pts = Some a → last pts = Some b → a ≠ b →
  (outer_winding_ok (pts ++ [a]) = false →
   outer_winding_ok (reverse (pts ++ [a])) = true) →
  ∃ poly,
    OSMStore.llListPolygon make_Point deref outer_winding_ok
      inner_winding_ok s its = OSMStore.Returns poly ∧
    head (OSMStore.outer poly) = Some a ∧
    last (OSMStore.outer poly) = Some a ∧
    (OSMStore.outer poly = pts ++ [a] ∨
     OSMStore.outer poly = reverse (pts ++ [a])) ∧
    outer_winding_ok (OSMStore.outer poly) = true ∧
    OSMStore.inners poly = [].
Proof.
  intros pts Hruns Hh Hl Hne Hflip.
  assert (Hfill : fillPoints s [] its = (pts, None)).
  { destruct Hruns as [Hri | Hall].
    - apply (fillPoints_lenient s its Hri []).
    - apply (fillPoints_all_resolve s its Hall []). }
  unfold OSMStore.llListPolygon. rewrite Hfill.
  eexists; split; [reflexivity|]; simpl.
  rewrite (close_ring_open pts a b Hh Hl Hne).
  assert (Hh' : head (pts ++ [a]) = Some a) by (by rewrite head_app, Hh).
  assert (Hl' : last (pts ++ [a]) = Some a) by apply last_snoc.
  destruct (orient_keeps_closed outer_winding_ok _ a Hh' Hl') as [Ho1 Ho2].
  split; [done|]. split; [done|].
  unfold OSMStore.orient.
  destruct (outer_winding_ok (pts ++ [a])) eqn:Hok.
  - repeat split; auto.
  - repeat split; auto.
Qed.

End GeometryFacts.

(** ** The statements above at concrete inputs *)

(** A relation without stored tags, and a relation whose stored tags
    lack the key. *)
Lemma get_relation_tag_absent_witness :
  RelationScanStore.get_relation_tag 7 "name" RelationScanStore.init
  = EmptyString ∧
  RelationScanStore.get_relation_tag 7 "name"
    (RelationScanStore.store_relation_tags 7 {["type" := "route"]}
       RelationScanStore.init)
  = EmptyString.
Proof.
  split.
  - apply (get_relation_tag_absent 7 "name" RelationScanStore.init).
    left. reflexivity.
  - apply (get_relation_tag_absent 7 "name").
    right. exists {["type" := "route"]}. split; reflexivity.
Defined.

(** One stored relation, two appended. *)
Lemma insert_front_appends_witness :
  ∃ s',
    RelationStore.insert_front [(4, ([5], [])); (6, ([], [7]))]
      (RelationStore.mk (Some [(1, ([2], [3]))])) = Some s' ∧
    RelationStore.mOutInLists s'
      = Some [(1, ([2], [3])); (4, ([5], [])); (6, ([], [7]))] ∧
    RelationStore.size s' = Some 3.
Proof.
  destruct (insert_front_appends [(4, ([5], [])); (6, ([], [7]))]
              [(1, ([2], [3]))] (RelationStore.mk (Some [(1, ([2], [3]))]))
              eq_refl eq_refl)
    as (s' & Hins & Hlist & _ & _ & _ & Hsize).
  exists s'. repeat split; assumption.
Defined.

(** Node 9 is not stored: the strict store throws, the lenient one
    builds the linestring from nodes 3, 2 and 1. *)
Lemma fillPoints_integrity_policy_witness :
  (∃ it, it ∈ [3; 9; 2; 1] ∧ Sample.node_at it = None) ∧
  OSMStore.llListLinestring Sample.make_Pt Sample.node_at Sample.strict
    [3; 9; 2; 1] = OSMStore.Throws OSMStore.out_of_range ∧
  OSMStore.llListLinestring Sample.make_Pt Sample.node_at Sample.lenient
    [3; 9; 2; 1] = OSMStore.Returns [(10, 10); (0, 10); (0, 0)]%Z.
Proof.
  assert (Hbad : ∃ it, it ∈ [3; 9; 2; 1] ∧ Sample.node_at it = None).
  { exists 9. split; [|reflexivity]. apply list_elem_of_In. simpl. tauto. }
  split; [exact Hbad|]. split.
  - apply (fillPoints_integrity_policy Sample.make_Pt Sample.node_at
             Sample.strict [3; 9; 2; 1] Hbad). reflexivity.
  - apply (fillPoints_integrity_policy Sample.make_Pt Sample.node_at
             Sample.lenient [3; 9; 2; 1] Hbad). reflexivity.
Defined.

(** Nodes 3, 2, 1 form an open, counter-clockwise chain: the ring is
    closed with the point of node 3 and reversed. *)
Lemma llListPolygon_closes_ring_witness :
  ∃ poly,
    OSMStore.llListPolygon Sample.make_Pt Sample.node_at Sample.outer_ok
      Sample.inner_ok Sample.strict [3; 2; 1] = OSMStore.Returns poly ∧
    head (OSMStore.outer poly) = Some (10, 10)%Z ∧
    last (OSMStore.outer poly) = Some (10, 10)%Z ∧
    Sample.outer_ok (OSMStore.outer poly) = true.
Proof.
  destruct (llListPolygon_closes_ring Sample.make_Pt Sample.node_at
              Sample.outer_ok Sample.inner_ok Sample.strict [3; 2; 1]
              (10, 10)%Z (0, 0)%Z)
    as (poly & Hret & Hhead & Hlast & _ & Hwind & _).
  - right. repeat constructor; eexists; reflexivity.
  - reflexivity.
  - reflexivity.
  - discriminate.
  - intros _. reflexivity.
  - exists poly. repeat split; assumption.
Defined.

(** * Further properties *)

(** ** [UsedWays]: what [insert] keeps and what it changes *)

(** A successful [insert] never shrinks the vector, and the bits that
    were there stay where they are, except the one it sets. *)
Lemma UsedWays_insert_bits (w : N) (s s' : UsedWays.t) :
  UsedWays.insert w s = Some s' →
  w < VecBool.size (UsedWays.usedList s') ∧
  VecBool.size (UsedWays.usedList s) ≤ VecBool.size (UsedWays.usedList s') ∧
  UsedWays.inited s' = UsedWays.inited s ∧
  ∀ v, v ≠ w →
    VecBool.get v (UsedWays.usedList s') =
    if v <? VecBool.size (UsedWays.usedList s)
    then VecBool.get v (UsedWays.usedList s)
    else if v <? VecBool.size (UsedWays.usedList s') then Some false
         else None.
Proof.
  unfold UsedWays.insert.
  set (v0 := if _ <? _ then _ else _).
  destruct (VecBool.set w true v0) as [v'|] eqn:Hset; simpl; [|done].
  intros [= <-]; simpl.
  pose proof (VecBool_size_set _ _ _ _ Hset) as Hsz.
  assert (Hin : w < VecBool.size v0).
  { apply (VecBool_set_in_bounds w true). by rewrite Hset. }
  assert (Hv' : ∀ v, v ≠ w → VecBool.get v v' = VecBool.get v v0).
  { intros v Hv. unfold VecBool.set in Hset.
    destruct (w <? VecBool.size v0); [|done].
    injection Hset as <-. unfold VecBool.get; simpl.
    apply list_lookup_insert_ne. lia. }
  rewrite Hsz. subst v0.
  destruct (N.ltb_spec (VecBool.size (UsedWays.usedList s)) w) as [Hgrow|Hkeep].
  - rewrite VecBool_size_resize in *.
    split; [done|]. split; [lia|]. split; [done|].
    intros v Hv. rewrite (Hv' v Hv).
    unfold VecBool.get, VecBool.resize, VecBool.size in *; simpl.
    rewrite take_ge by lia.
    destruct (N.ltb_spec v (N.of_nat (length (VecBool.bits (UsedWays.usedList s))))).
    + apply lookup_app_l. lia.
    + destruct (N.ltb_spec v (wrap64 (w + 256))).
      * rewrite lookup_app_r by lia. apply lookup_replicate_2. lia.
      * apply lookup_ge_None. rewrite length_app, length_replicate. lia.
  - split; [done|]. split; [lia|]. split; [done|].
    intros v Hv. rewrite (Hv' v Hv).
    destruct (N.ltb_spec v (VecBool.size (UsedWays.usedList s))); [done|].
    apply lookup_ge_None. unfold VecBool.size in *. lia.
Qed.

Lemma UsedWays_at_inserted (w : N) (s s' : UsedWays.t) :
  UsedWays.insert w s = Some s' → UsedWays.at_ w s' = Some true.
Proof.
  intros Hins. destruct (UsedWays_insert_bits w s s' Hins) as (Hin & _).
  unfold UsedWays.insert in Hins.
  destruct (VecBool.set w true _) as [v'|] eqn:Hset; simpl in Hins; [|done].
  injection Hins as <-. unfold UsedWays.at_; simpl in *.
  destruct (N.ltb_spec (VecBool.size v') w); [lia|].
  by eapply VecBool_get_set.
Qed.

(** Whenever [insert(w)] stays inside the vector, [at(w)] reads [true]
    afterwards. *)
Theorem UsedWays_insert_marks (w : N) (s s' : UsedWays.t) :
  UsedWays.insert w s = Some s' → UsedWays.at_ w s' = Some true.
Proof. apply UsedWays_at_inserted. Qed.

(** A way that [at] reports as used is still reported as used after any
    successful [insert]. *)
Theorem UsedWays_insert_keeps_marks (w v : N) (s s' : UsedWays.t) :
  UsedWays.insert w s = Some s' →
  UsedWays.at_ v s = Some true →
  UsedWays.at_ v s' = Some true.
Proof.
  intros Hins Hat.
  destruct (decide (v = w)) as [->|Hne].
  { by apply (UsedWays_at_inserted w s s'). }
  destruct (UsedWays_insert_bits w s s' Hins) as (_ & Hle & _ & Hbits).
  unfold UsedWays.at_ in *.
  destruct (N.ltb_spec (VecBool.size (UsedWays.usedList s)) v); [done|].
  assert (Hv : v < VecBool.size (UsedWays.usedList s)).
  { apply VecBool_get_in_bounds. by rewrite Hat. }
  destruct (N.ltb_spec (VecBool.size (UsedWays.usedList s')) v); [lia|].
  rewrite (Hbits v Hne).
  by destruct (N.ltb_spec v (VecBool.size (UsedWays.usedList s))); [|lia].
Qed.

(** For any other id, and away from the new end of the vector, [insert]
    does not change what [at] answers. *)
Theorem UsedWays_insert_other_ids (w v : N) (b : bool) (s s' : UsedWays.t) :
  UsedWays.insert w s = Some s' →
  v ≠ w →
  v ≠ VecBool.size (UsedWays.usedList s') →
  UsedWays.at_ v s = Some b →
  UsedWays.at_ v s' = Some b.
Proof.
  intros Hins Hne Hend Hat.
  destruct (UsedWays_insert_bits w s s' Hins) as (_ & Hle & _ & Hbits).
  unfold UsedWays.at_ in *. rewrite (Hbits v Hne).
  destruct (N.ltb_spec (VecBool.size (UsedWays.usedList s')) v) as [Hout|Hin'].
  - destruct (N.ltb_spec (VecBool.size (UsedWays.usedList s)) v); [done|lia].
  - destruct (N.ltb_spec v (VecBool.size (UsedWays.usedList s))) as [Hold|Hnew].
    + by destruct (N.ltb_spec (VecBool.size (UsedWays.usedList s)) v); [lia|].
    + destruct (N.ltb_spec v (VecBool.size (UsedWays.usedList s'))); [|lia].
      destruct (N.ltb_spec (VecBool.size (UsedWays.usedList s)) v); [done|].
      assert (Hv : v < VecBool.size (UsedWays.usedList s)); [|lia].
      apply VecBool_get_in_bounds. by rewrite Hat.
Qed.

Lemma UsedWays_insert_in_bounds_iff (w : N) (s : UsedWays.t) :
  w < two64 →
  is_Some (UsedWays.insert w s) ↔
  w < VecBool.size (UsedWays.usedList s) ∨
  (VecBool.size (UsedWays.usedList s) < w ∧ w + 256 < two64).
Proof.
  intros Hw. unfold UsedWays.insert.
  set (v0 := if _ <? _ then _ else _).
  assert (Hdef : is_Some (VecBool.set w true v0 ≫= λ v', Some (UsedWays.mk v' (UsedWays.inited s)))
                 ↔ w < VecBool.size v0).
  { rewrite (VecBool_set_in_bounds w true v0).
    destruct (VecBool.set w true v0); simpl; split; intros [? ?]; by eauto. }
  rewrite Hdef. subst v0.
  destruct (N.ltb_spec (VecBool.size (UsedWays.usedList s)) w) as [Hgrow|Hkeep].
  - rewrite VecBool_size_resize. unfold wrap64, two64 in *.
    destruct (decide (w + 256 < 2 ^ 64)) as [Hfit|Hwrap].
    + rewrite N.mod_small by done. lia.
    + assert (Hmod : (w + 256) mod 2 ^ 64 = w + 256 - 2 ^ 64).
      { symmetry. apply (N.mod_unique _ _ 1); lia. }
      rewrite Hmod. lia.
  - lia.
Qed.

(** [insert(w)] stays inside the vector exactly when [w] is below the
    size, or above it with [w + 256] still representable; it runs out of
    bounds when [w] equals the size and when [w + 256] wraps around. *)
Theorem UsedWays_insert_defined (w : N) (s : UsedWays.t) :
  w < two64 →
  is_Some (UsedWays.insert w s) ↔
  w < VecBool.size (UsedWays.usedList s) ∨
  (VecBool.size (UsedWays.usedList s) < w ∧ w + 256 < two64).
Proof. apply UsedWays_insert_in_bounds_iff. Qed.

(** A successful [insert] above the size grows the vector to exactly
    [w + 256] bits; one below the size leaves the size alone. *)
Theorem UsedWays_insert_size (w : N) (s s' : UsedWays.t) :
  w < two64 →
  UsedWays.insert w s = Some s' →
  VecBool.size (UsedWays.usedList s') =
  if VecBool.size (UsedWays.usedList s) <? w then w + 256
  else VecBool.size (UsedWays.usedList s).
Proof.
  intros Hw Hins.
  assert (Hsome : is_Some (UsedWays.insert w s)) by by rewrite Hins.
  apply (UsedWays_insert_in_bounds_iff w s Hw) in Hsome.
  unfold UsedWays.insert in Hins.
  destruct (VecBool.set w true _) as [v'|] eqn:Hset; simpl in Hins; [|done].
  injection Hins as <-; simpl.
  rewrite (VecBool_size_set _ _ _ _ Hset).
  destruct (N.ltb_spec (VecBool.size (UsedWays.usedList s)) w); [|done].
  rewrite VecBool_size_resize. unfold wrap64.
  apply N.mod_small. lia.
Qed.

(** ** [UsedWays]: [reserve] and [clear] *)

(** What [insert] and [at] do depends on the bits only, not on the
    capacity or on [inited]. *)
Lemma UsedWays_insert_at_bits (v w : N) (s1 s2 : UsedWays.t) :
  VecBool.bits (UsedWays.usedList s1) = VecBool.bits (UsedWays.usedList s2) →
  UsedWays.at_ w s1 = UsedWays.at_ w s2 ∧
  (UsedWays.insert v s1 ≫= UsedWays.at_ w)
  = (UsedWays.insert v s2 ≫= UsedWays.at_ w).
Proof.
  intros Hbits.
  assert (Hat : ∀ a b, VecBool.bits (UsedWays.usedList a)
                       = VecBool.bits (UsedWays.usedList b) →
                       UsedWays.at_ w a = UsedWays.at_ w b).
  { intros a b Hab. unfold UsedWays.at_, VecBool.size, VecBool.get.
    by rewrite Hab. }
  split; [by apply Hat|].
  unfold UsedWays.insert, VecBool.set, VecBool.resize, VecBool.size.
  rewrite Hbits.
  destruct (N.of_nat (length (VecBool.bits (UsedWays.usedList s2))) <? v);
    simpl; unfold VecBool.size; simpl.
  - case_match; simpl; [by apply Hat|reflexivity].
  - rewrite Hbits. case_match; simpl; [|reflexivity].
    by apply Hat.
Qed.

(** [reserve] changes no answer: [at] reads the same before and after
    it, and so does [at] after a following [insert]. *)
Theorem UsedWays_reserve_changes_no_answer
  (compact : bool) (n v w : N) (s : UsedWays.t) :
  UsedWays.at_ w (UsedWays.reserve compact n s) = UsedWays.at_ w s ∧
  (UsedWays.insert v (UsedWays.reserve compact n s) ≫= UsedWays.at_ w)
  = (UsedWays.insert v s ≫= UsedWays.at_ w).
Proof.
  apply UsedWays_insert_at_bits.
  unfold UsedWays.reserve, VecBool.reserve.
  destruct (UsedWays.inited s); [done|].
  destruct compact; simpl; by case_match.
Qed.

(** [clear] empties the vector but neither resets [inited] nor gives the
    storage back: after a [reserve], a [clear] and another [reserve], the
    second [reserve] still does nothing and the capacity is the one the
    first call left. *)
Theorem UsedWays_clear_keeps_reservation
  (compact0 compact : bool) (n0 n : N) (s : UsedWays.t) :
  let s0 := UsedWays.reserve compact0 n0 s in
  let s1 := UsedWays.clear s0 in
  UsedWays.reserve compact n s1 = s1 ∧
  VecBool.cap (UsedWays.usedList s1) = VecBool.cap (UsedWays.usedList s0) ∧
  VecBool.size (UsedWays.usedList s1) = 0.
Proof.
  simpl. split; [|done].
  unfold UsedWays.reserve at 1, UsedWays.clear; simpl.
  assert (Hin : UsedWays.inited (UsedWays.reserve compact0 n0 s) = true).
  { unfold UsedWays.reserve. destruct (UsedWays.inited s) eqn:E; [done|].
    by destruct compact0. }
  by rewrite Hin.
Qed.

(** After [clear] no way is reported as used: [at] answers [false] for
    every id but [0], and for [0] it reads the empty vector out of
    bounds. *)
Theorem UsedWays_clear_forgets (w : N) (s : UsedWays.t) :
  UsedWays.at_ w (UsedWays.clear s) = if decide (w = 0) then None else Some false.
Proof.
  unfold UsedWays.at_, UsedWays.clear, VecBool.clear, VecBool.size.
  case_decide as Hw; destruct w as [|p]; done.
Qed.

(** ** [RelationScanStore]: reads after writes *)

(** Tags stored for a relation are read back key by key, a second
    [store_relation_tags] for the same relation replaces the first
    snapshot as a whole, and other relations are not affected. *)
Theorem get_relation_tag_store
  (relid relid' : N) (key : string) (tags : gmap string string)
  (s : RelationScanStore.t) :
  RelationScanStore.get_relation_tag relid' key
    (RelationScanStore.store_relation_tags relid tags s)
  = if decide (relid = relid') then default EmptyString (tags !! key)
    else RelationScanStore.get_relation_tag relid' key s.
Proof.
  unfold RelationScanStore.get_relation_tag,
    RelationScanStore.store_relation_tags; simpl.
  rewrite lookup_insert. case_decide; [|done]. by destruct (tags !! key).
Qed.

Lemma way_in_any_after_contains_way
  (relid w w' : N) (s : RelationScanStore.t) :
  RelationScanStore.way_in_any_relations w'
    (RelationScanStore.relation_contains_way relid w s)
  = if decide (w = w') then true
    else RelationScanStore.way_in_any_relations w' s.
Proof.
  unfold RelationScanStore.way_in_any_relations,
    RelationScanStore.relation_contains_way.
  pose proof (map_subscript_lookup [] w w' (RelationScanStore.relationsForWays s)) as Hl.
  destruct (map_subscript _ _ _) as [v m]; simpl in *.
  rewrite lookup_insert. case_decide; [done|]. by rewrite Hl.
Qed.

(** [relation_contains_way(relid, wayid)] makes [way_in_any_relations]
    true for [wayid] and leaves its answer for every other way as it
    was. *)
Theorem way_in_any_relations_contains_way
  (relid w w' : N) (s : RelationScanStore.t) :
  RelationScanStore.way_in_any_relations w'
    (RelationScanStore.relation_contains_way relid w s)
  = if decide (w = w') then true
    else RelationScanStore.way_in_any_relations w' s.
Proof. apply way_in_any_after_contains_way. Qed.

(** After a run of [relation_contains_way] calls, [way_in_any_relations]
    holds for the ways it held for before and for the ways named in the
    calls, and for no other. *)
Theorem way_in_any_relations_record_all
  (calls : list (N * N)) (w : N) (s : RelationScanStore.t) :
  RelationScanStore.way_in_any_relations w
    (RelationScanStore.record_all calls s)
  = RelationScanStore.way_in_any_relations w s
    || bool_decide (w ∈ calls.*2).
Proof.
  unfold RelationScanStore.record_all.
  revert s. induction calls as [|[relid w'] calls IH]; intros s; simpl.
  - by rewrite orb_false_r.
  - rewrite IH, way_in_any_after_contains_way.
    change (list_fmap _ _ snd calls) with (calls.*2).
    rewrite (bool_decide_ext (w ∈ w' :: calls.*2) (w = w' ∨ w ∈ calls.*2))
      by apply elem_of_cons.
    rewrite bool_decide_or. destruct (decide (w' = w)) as [Hw|Hw].
    + rewrite (bool_decide_eq_true_2 (w = w')) by congruence.
      by rewrite orb_true_r.
    + rewrite (bool_decide_eq_false_2 (w = w')) by congruence. done.
Qed.

(** The membership index and the tag snapshots do not interfere:
    recording a membership changes no tag lookup, and storing tags
    changes neither [way_in_any_relations] nor what [relations_for_way]
    returns. *)
Theorem scan_store_maps_independent
  (relid relid' w w' : N) (key : string) (tags : gmap string string)
  (s : RelationScanStore.t) :
  RelationScanStore.get_relation_tag relid' key
    (RelationScanStore.relation_contains_way relid w s)
  = RelationScanStore.get_relation_tag relid' key s ∧
  RelationScanStore.way_in_any_relations w'
    (RelationScanStore.store_relation_tags relid tags s)
  = RelationScanStore.way_in_any_relations w' s ∧
  (RelationScanStore.relations_for_way w'
     (RelationScanStore.store_relation_tags relid tags s)).1
  = (RelationScanStore.relations_for_way w' s).1.
Proof.
  split; [|split].
  - unfold RelationScanStore.get_relation_tag,
      RelationScanStore.relation_contains_way.
    by destruct (map_subscript _ _ _).
  - done.
  - by rewrite !relations_for_way_value.
Qed.

(** [relations_for_way] may add an empty entry but it loses nothing: the
    relations recorded for every way and every stored tag are the same
    after the call, and calling it again returns the same vector and
    changes nothing further. *)
Theorem relations_for_way_loses_nothing
  (w w' relid : N) (key : string) (s : RelationScanStore.t) :
  let r := RelationScanStore.relations_for_way w s in
  RelationScanStore.recorded_for w' r.2 = RelationScanStore.recorded_for w' s ∧
  RelationScanStore.get_relation_tag relid key r.2
  = RelationScanStore.get_relation_tag relid key s ∧
  RelationScanStore.relations_for_way w r.2 = r.
Proof.
  simpl. unfold RelationScanStore.relations_for_way,
    RelationScanStore.recorded_for, RelationScanStore.get_relation_tag,
    map_subscript.
  destruct (RelationScanStore.relationsForWays s !! w) as [l|] eqn:E; simpl.
  - rewrite E. by destruct s.
  - rewrite lookup_insert_eq. split; [|done].
    rewrite lookup_insert. case_decide; [|done]. subst. by rewrite E.
Qed.

(** [clear] forgets every earlier membership: what is read after [clear]
    and a run of [relation_contains_way] calls is determined by that run
    alone, and every tag lookup after [clear] gives the empty string. *)
Theorem scan_store_clear_forgets
  (calls : list (N * N)) (w relid : N) (key : string)
  (s : RelationScanStore.t) :
  (RelationScanStore.relations_for_way w
     (RelationScanStore.record_all calls (RelationScanStore.clear s))).1
  = (filter (λ c, c.2 = w) calls).*1 ∧
  RelationScanStore.way_in_any_relations w (RelationScanStore.clear s)
  = false ∧
  RelationScanStore.get_relation_tag relid key
    (RelationScanStore.record_all calls (RelationScanStore.clear s))
  = EmptyString.
Proof.
  split; [|split].
  - rewrite relations_for_way_value, recorded_for_record_all.
    unfold RelationScanStore.recorded_for; simpl. by rewrite lookup_empty.
  - done.
  - assert (Htags : ∀ s0, RelationScanStore.relationTags
                            (RelationScanStore.record_all calls s0)
                          = RelationScanStore.relationTags s0).
    { unfold RelationScanStore.record_all.
      induction calls as [|[r w0] calls IH]; intros s0; simpl; [done|].
      rewrite IH. unfold RelationScanStore.relation_contains_way.
      by destruct (map_subscript _ _ _). }
    unfold RelationScanStore.get_relation_tag. rewrite Htags; simpl.
    by rewrite lookup_empty.
Qed.

(** ** [RelationStore]: opening, clearing, batches *)

(** On an opened store whose new size fits [size_t], [insert_front]
    yields the old entries followed by the new ones. *)
Lemma insert_front_opened
  (new_relations old : list RelationStore.element_t) (s : RelationStore.t) :
  RelationStore.mOutInLists s = Some old →
  N.of_nat (length old) + N.of_nat (length new_relations) < two64 →
  RelationStore.insert_front new_relations s
  = Some (RelationStore.mk (Some (old ++ new_relations))).
Proof.
  intros Hold Hfit. unfold RelationStore.insert_front.
  rewrite Hold; simpl.
  unfold wrap64. rewrite N.mod_small by done.
  rewrite <-Nat2N.inj_add, deque_resize_grow, Nat2N.id.
  rewrite std_copy_window by (rewrite length_app, length_replicate; lia).
  simpl. rewrite take_app_length.
  rewrite drop_ge by (rewrite length_app, length_replicate; lia).
  by rewrite app_nil_r.
Qed.

(** Two batches inserted one after the other leave the store as one
    insertion of the concatenated batch does. *)
Theorem insert_front_batches
  (batch1 batch2 old : list RelationStore.element_t) (s : RelationStore.t) :
  RelationStore.mOutInLists s = Some old →
  N.of_nat (length old) + N.of_nat (length batch1)
    + N.of_nat (length batch2) < two64 →
  RelationStore.insert_front batch1 s ≫= RelationStore.insert_front batch2
  = RelationStore.insert_front (batch1 ++ batch2) s.
Proof.
  intros Hold Hfit.
  rewrite (insert_front_opened batch1 old s Hold) by lia; simpl.
  rewrite (insert_front_opened batch2 (old ++ batch1)) by
    (done || (rewrite length_app; lia)).
  rewrite (insert_front_opened (batch1 ++ batch2) old s Hold) by
    (rewrite length_app; lia).
  by rewrite <-app_assoc.
Qed.

(** The members dereference [mOutInLists] without a check: [size],
    [clear] and [insert_front] are defined exactly on a store that
    [reopen] has opened, and [reopen] always opens it. *)
Theorem relation_store_needs_reopen
  (new_relations : list RelationStore.element_t) (s : RelationStore.t) :
  N.of_nat (length new_relations) < two64 →
  (is_Some (RelationStore.size s) ↔ is_Some (RelationStore.mOutInLists s)) ∧
  (is_Some (RelationStore.clear s) ↔ is_Some (RelationStore.mOutInLists s)) ∧
  (RelationStore.mOutInLists s = None →
   RelationStore.insert_front new_relations s = None) ∧
  RelationStore.size (RelationStore.reopen s) = Some 0 ∧
  RelationStore.insert_front new_relations (RelationStore.reopen s)
  = Some (RelationStore.mk (Some new_relations)).
Proof.
  intros Hfit. repeat split.
  - unfold RelationStore.size.
    destruct (RelationStore.mOutInLists s); simpl; [eauto|by intros [? ?]].
  - unfold RelationStore.size.
    destruct (RelationStore.mOutInLists s); simpl; [eauto|by intros [? ?]].
  - unfold RelationStore.clear.
    destruct (RelationStore.mOutInLists s); simpl; [eauto|by intros [? ?]].
  - unfold RelationStore.clear.
    destruct (RelationStore.mOutInLists s); simpl; [eauto|by intros [? ?]].
  - unfold RelationStore.insert_front. by intros ->.
  - by rewrite (insert_front_opened new_relations []
                  (RelationStore.reopen s) eq_refl).
Qed.

(** [clear] on an opened store drops every entry and keeps the store
    open: the size is 0 and a following [insert_front] holds exactly the
    new entries. *)
Theorem relation_store_clear_then_insert
  (new_relations old : list RelationStore.element_t) (s : RelationStore.t) :
  RelationStore.mOutInLists s = Some old →
  N.of_nat (length new_relations) < two64 →
  (RelationStore.clear s ≫= RelationStore.size) = Some 0 ∧
  (RelationStore.clear s ≫= RelationStore.insert_front new_relations)
  = Some (RelationStore.mk (Some new_relations)).
Proof.
  intros Hold Hfit. unfold RelationStore.clear. rewrite Hold; simpl.
  split; [done|].
  by rewrite (insert_front_opened new_relations []
                (RelationStore.mk (Some [])) eq_refl).
Qed.

(** ** The [OSMStore] facade *)

(** [mark_way_used] reaches the bit vector only: when it stays in bounds
    the way is then reported by [way_is_used], and the integrity flag,
    the compact flag, the relation store and the scanned relations are
    what they were. *)
Theorem mark_way_used_marks (i : N) (s s' : OSMStore.t) :
  OSMStore.mark_way_used i s = Some s' →
  OSMStore.way_is_used i s' = Some true ∧
  OSMStore.integrity_enforced s' = OSMStore.integrity_enforced s ∧
  OSMStore.use_compact_nodes s' = OSMStore.use_compact_nodes s ∧
  OSMStore.relations s' = OSMStore.relations s ∧
  OSMStore.scanned_relations s' = OSMStore.scanned_relations s.
Proof.
  unfold OSMStore.mark_way_used, OSMStore.way_is_used.
  destruct (UsedWays.insert i (OSMStore.used_ways s)) as [u|] eqn:Hins;
    simpl; [|done].
  intros [= <-]; simpl. split; [|done].
  by apply (UsedWays_at_inserted i (OSMStore.used_ways s)).
Qed.

(** Through the facade, [relation_contains_way(relid, wayid)] adds
    [relid] at the end of what [relations_for_way(wayid)] returns, makes
    [way_in_any_relations(wayid)] true, and leaves the used ways and the
    integrity flag alone. *)
Theorem facade_relation_contains_way (relid w : N) (s : OSMStore.t) :
  let s' := OSMStore.relation_contains_way relid w s in
  (OSMStore.relations_for_way w s').1
  = (OSMStore.relations_for_way w s).1 ++ [relid] ∧
  OSMStore.way_in_any_relations w s' = true ∧
  OSMStore.used_ways s' = OSMStore.used_ways s ∧
  OSMStore.integrity_enforced s' = OSMStore.integrity_enforced s.
Proof.
  simpl. split; [|split; [|done]].
  - unfold OSMStore.relations_for_way, OSMStore.relation_contains_way; simpl.
    pose proof (relations_for_way_value w
      (RelationScanStore.relation_contains_way relid w
         (OSMStore.scanned_relations s))) as H1.
    pose proof (relations_for_way_value w (OSMStore.scanned_relations s)) as H2.
    destruct (RelationScanStore.relations_for_way w
                (RelationScanStore.relation_contains_way _ _ _)) as [v1 r1].
    destruct (RelationScanStore.relations_for_way w
                (OSMStore.scanned_relations s)) as [v2 r2].
    simpl in *. rewrite H1, H2, recorded_for_contains_way.
    by case_decide.
  - unfold OSMStore.way_in_any_relations, OSMStore.relation_contains_way;
      simpl.
    rewrite way_in_any_after_contains_way. by case_decide.
Qed.

(** ** [fillPoints] and its callers *)

Section FillPointsFacts.

Context {Point : Type} `{EqDecision Point} (make_Point : Z → Z → Point).
Context {LatpLonIt : Type} (deref : LatpLonIt → option OSMStore.LatpLon).
Context (outer_winding_ok inner_winding_ok : list Point → bool).

Local Abbreviation fillPoints := (OSMStore.fillPoints make_Point deref).
Local Abbreviation to_Point := (OSMStore.to_Point make_Point).

(** Filling from a range split in two is filling from the first part
    and, unless that threw, going on from the second. *)
Theorem fillPoints_app
  (s : OSMStore.t) (its1 its2 : list LatpLonIt) (points : list Point) :
  fillPoints s points (its1 ++ its2) =
  match fillPoints s points its1 with
  | (points1, None) => fillPoints s points1 its2
  | (points1, Some e) => (points1, Some e)
  end.
Proof.
  revert points. induction its1 as [|it its1 IH]; intros points; simpl.
  - done.
  - destruct (deref it) as [ll|]; [apply IH|].
    destruct (OSMStore.require_integrity s); [done|apply IH].
Qed.

(** Whatever the flag and whether or not it throws, [fillPoints] keeps
    the points already in the range, in place, and adds at most one point
    per position. *)
Theorem fillPoints_keeps_points
  (s : OSMStore.t) (its : list LatpLonIt) (points : list Point) :
  ∃ added, (fillPoints s points its).1 = points ++ added ∧
           (length added ≤ length its)%nat.
Proof.
  revert points. induction its as [|it its IH]; intros points; simpl.
  - exists []. by rewrite app_nil_r.
  - destruct (deref it) as [ll|].
    + destruct (IH (points ++ [make_Point (OSMStore.lon ll) (OSMStore.latp ll)]))
        as (added & -> & Hlen).
      exists (make_Point (OSMStore.lon ll) (OSMStore.latp ll) :: added).
      split; [by rewrite <-app_assoc|simpl; lia].
    + destruct (OSMStore.require_integrity s).
      * exists []. split; [by rewrite app_nil_r|simpl; lia].
      * destruct (IH points) as (added & -> & Hlen).
        exists added. split; [done|lia].
Qed.

Lemma fillPoints_throws_iff
  (s : OSMStore.t) (its : list LatpLonIt) (points : list Point) :
  (fillPoints s points its).2 = Some OSMStore.out_of_range ↔
  OSMStore.require_integrity s = true ∧ ∃ it, it ∈ its ∧ deref it = None.
Proof.
  revert points. induction its as [|it its IH]; intros points; simpl.
  - split; [done|]. intros (_ & it & Hin & _). by apply elem_of_nil in Hin.
  - destruct (deref it) as [ll|] eqn:Hit.
    + rewrite IH. split; intros (Hri & bad & Hin & Hbad); (split; [done|]).
      * exists bad. split; [by right|done].
      * exists bad. split; [|done].
        apply elem_of_cons in Hin as [->|Hin]; [congruence|done].
    + destruct (OSMStore.require_integrity s) eqn:Hri; simpl.
      * split; [|done]. intros _. split; [done|].
        exists it. split; [by left|done].
      * rewrite IH. split; intros (? & _); done.
Qed.

(** [llListLinestring] and [llListPolygon] throw in the same case, and
    only in that one: integrity is enforced and some position of the
    range does not resolve. *)
Theorem geometry_throws_iff
  (s : OSMStore.t) (its : list LatpLonIt) (e : OSMStore.exn) :
  (OSMStore.llListLinestring make_Point deref s its = OSMStore.Throws e ↔
   OSMStore.require_integrity s = true ∧ ∃ it, it ∈ its ∧ deref it = None) ∧
  (OSMStore.llListPolygon make_Point deref outer_winding_ok
     inner_winding_ok s its = OSMStore.Throws e ↔
   OSMStore.require_integrity s = true ∧ ∃ it, it ∈ its ∧ deref it = None).
Proof.
  pose proof (fillPoints_throws_iff s its []) as Hiff.
  unfold OSMStore.llListLinestring, OSMStore.llListPolygon.
  destruct (fillPoints s [] its) as [pts [[]|]]; simpl in *; destruct e.
  - split; (split; [intros _; by apply Hiff|done]).
  - split; (split; [done|]); intros Hc; apply Hiff in Hc; done.
Qed.

(** When every position resolves, [llListLinestring] returns one point
    per position, in order, whether or not integrity is enforced. *)
Theorem llListLinestring_all_resolve
  (s : OSMStore.t) (its : list LatpLonIt) (lls : list OSMStore.LatpLon) :
  Forall2 (λ it ll, deref it = Some ll) its lls →
  OSMStore.llListLinestring make_Point deref s its
  = OSMStore.Returns (to_Point <$> lls) ∧
  length (to_Point <$> lls) = length its.
Proof.
  intros Hall.
  assert (Hres : OSMStore.resolvable deref its = lls).
  { unfold OSMStore.resolvable.
    induction Hall as [|it ll its lls Hit _ IH]; simpl; [done|].
    rewrite Hit; simpl. f_equal. exact IH. }
  assert (Hsome : Forall (λ it, is_Some (deref it)) its).
  { clear Hres. induction Hall as [|it ll its lls Hit _ IH].
    - constructor.
    - constructor; [by exists ll|done]. }
  unfold OSMStore.llListLinestring.
  rewrite (fillPoints_all_resolve make_Point deref s its Hsome []), Hres.
  split; [done|]. rewrite length_fmap. symmetry. by eapply Forall2_length.
Qed.

End FillPointsFacts.

(** ** The further properties at concrete inputs *)

Lemma UsedWays_insert_marks_witness :
  UsedWays.insert 5 UsedWays.init = Some Sample.marked_5 ∧
  UsedWays.at_ 5 Sample.marked_5 = Some true.
Proof.
  split; [vm_compute; reflexivity|].
  apply (UsedWays_insert_marks 5 UsedWays.init). vm_compute; reflexivity.
Defined.

Lemma UsedWays_insert_keeps_marks_witness :
  UsedWays.insert 300 Sample.marked_5 = Some Sample.marked_5_300 ∧
  UsedWays.at_ 5 Sample.marked_5 = Some true ∧
  UsedWays.at_ 5 Sample.marked_5_300 = Some true.
Proof.
  split; [vm_compute; reflexivity|]. split; [vm_compute; reflexivity|].
  apply (UsedWays_insert_keeps_marks 300 5 Sample.marked_5);
    vm_compute; reflexivity.
Defined.

Lemma UsedWays_insert_other_ids_witness :
  UsedWays.insert 300 Sample.marked_5 = Some Sample.marked_5_300 ∧
  UsedWays.at_ 7 Sample.marked_5 = Some false ∧
  UsedWays.at_ 7 Sample.marked_5_300 = Some false.
Proof.
  split; [vm_compute; reflexivity|]. split; [vm_compute; reflexivity|].
  apply (UsedWays_insert_other_ids 300 7 false Sample.marked_5);
    [vm_compute; reflexivity | discriminate | vm_compute; discriminate
    | vm_compute; reflexivity].
Defined.

Lemma UsedWays_insert_defined_witness :
  is_Some (UsedWays.insert 5 UsedWays.init) ↔
  5 < VecBool.size (UsedWays.usedList UsedWays.init) ∨
  (VecBool.size (UsedWays.usedList UsedWays.init) < 5 ∧ 5 + 256 < two64).
Proof. apply (UsedWays_insert_defined 5 UsedWays.init). reflexivity. Defined.

Lemma UsedWays_insert_size_witness :
  UsedWays.insert 5 UsedWays.init = Some Sample.marked_5 ∧
  VecBool.size (UsedWays.usedList Sample.marked_5) = 261.
Proof.
  split; [vm_compute; reflexivity|].
  apply (UsedWays_insert_size 5 UsedWays.init);
    [reflexivity | vm_compute; reflexivity].
Defined.

Lemma insert_front_batches_witness :
  RelationStore.insert_front [(4, ([5], []))]
    (RelationStore.mk (Some [(1, ([2], [3]))]))
    ≫= RelationStore.insert_front [(6, ([], [7]))]
  = RelationStore.insert_front [(4, ([5], [])); (6, ([], [7]))]
      (RelationStore.mk (Some [(1, ([2], [3]))])).
Proof.
  apply (insert_front_batches [(4, ([5], []))] [(6, ([], [7]))]
           [(1, ([2], [3]))]); reflexivity.
Defined.

Lemma relation_store_needs_reopen_witness :
  RelationStore.insert_front [(4, ([5], []))] RelationStore.init = None ∧
  RelationStore.insert_front [(4, ([5], []))]
    (RelationStore.reopen RelationStore.init)
  = Some (RelationStore.mk (Some [(4, ([5], []))])).
Proof.
  destruct (relation_store_needs_reopen [(4, ([5], []))] RelationStore.init)
    as (_ & _ & Hnull & _ & Hopen); [reflexivity|].
  split; [apply Hnull; reflexivity|exact Hopen].
Defined.

Lemma relation_store_clear_then_insert_witness :
  (RelationStore.clear (RelationStore.mk (Some [(1, ([2], [3]))]))
     ≫= RelationStore.insert_front [(4, ([5], []))])
  = Some (RelationStore.mk (Some [(4, ([5], []))])).
Proof.
  apply (relation_store_clear_then_insert [(4, ([5], []))]
           [(1, ([2], [3]))]); reflexivity.
Defined.

Lemma mark_way_used_marks_witness :
  ∃ s', OSMStore.mark_way_used 5 OSMStore.members_init = Some s' ∧
        OSMStore.way_is_used 5 s' = Some true ∧
        OSMStore.integrity_enforced s' = true.
Proof.
  eexists. split; [reflexivity|].
  destruct (mark_way_used_marks 5 OSMStore.members_init _ eq_refl)
    as (Hused & Hint & _).
  split; [exact Hused|exact Hint].
Defined.

Lemma llListLinestring_all_resolve_witness :
  OSMStore.llListLinestring Sample.make_Pt Sample.node_at Sample.strict
    [3; 2; 1] = OSMStore.Returns [(10, 10); (0, 10); (0, 0)]%Z ∧
  OSMStore.llListLinestring Sample.make_Pt Sample.node_at Sample.lenient
    [3; 2; 1] = OSMStore.Returns [(10, 10); (0, 10); (0, 0)]%Z.
Proof.
  assert (Hall : Forall2 (λ it ll, Sample.node_at it = Some ll) [3; 2; 1]
                   [OSMStore.mkLatpLon 10 10; OSMStore.mkLatpLon 10 0;
                    OSMStore.mkLatpLon 0 0]).
  { repeat constructor. }
  split.
  - apply (llListLinestring_all_resolve Sample.make_Pt Sample.node_at
             Sample.strict _ _ Hall).
  - apply (llListLinestring_all_resolve Sample.make_Pt Sample.node_at
             Sample.lenient _ _ Hall).
Defined.
